(** * Type-safe messaging: Receiver, Router, Sender and the schema types

    A shallow embedding of [src/receiver.ts], [src/sender.ts],
    [src/types.ts] and [src/receiverWithContext.ts].

    - JavaScript values are an inductive type; a promise is a value that
      carries its settlement.
    - A [Map] object lives in a store and is named by a reference, so that a
      [Router] and the [Receiver] it came from share one routing table, as
      the constructor argument [this.routes] does in the source.
    - A method is a computation over the store that either completes
      normally or throws, and that records every function object it calls.
    - What a function object does when called is a parameter [Call] of the
      development: handlers and transport adapters are supplied by the
      integrator. *)

From stdpp Require Import gmap strings list.

Open Scope string_scope.

(** ** JavaScript values *)

Module JS.

(** The values that cross the messaging layer. [VFulfilled], [VRejected]
    and [VPending] are promise objects. *)
#[warnings="-register-all"]
Inductive value : Type :=
| VUndefined
| VNull
| VBool (b : bool)
| VNum (n : Z)
| VStr (s : string)
| VObject (fields : list (string * value))
| VError (message : string)
| VFulfilled (v : value)
| VRejected (reason : value)
| VPending (id : nat).

(** A completion: the call returned [a], or it threw [e]. *)
Inductive completion (A : Type) : Type :=
| Normal (a : A)
| Throw (e : value).
Arguments Normal {A} a.
Arguments Throw {A} e.

(** [await c] inside an async function: a thrown error and a rejected
    promise both surface as a failure, a fulfilled promise as its value, a
    value that is no promise as itself; a pending promise never resumes. *)
Definition await (c : completion value) : option (completion value) :=
  match c with
  | Throw e => Some (Throw e)
  | Normal (VFulfilled v) => Some (Normal v)
  | Normal (VRejected e) => Some (Throw e)
  | Normal (VPending _) => None
  | Normal v => Some (Normal v)
  end.

(** The double-quote character, and [String(key)] for a string key. *)
Definition dquote : string := String (Ascii.ascii_of_nat 34) EmptyString.
Definition String_ (key : string) : string := key.

End JS.
Export JS.

(** ** Store, function objects and the method monad *)

(** A function object (a handler or a transport adapter) and a [Map]
    object are named by references. *)
Definition fn : Type := nat.
Definition loc : Type := positive.

(** The store: every [Map<KeyOf<Schema>, Handler<Schema>>] that was
    created, and the variables the integrator's closures captured. *)
Record store : Type := Store {
  maps : gmap loc (gmap string fn);
  globals : gmap string value
}.

(** One recorded call: the function object and its argument list. *)
Definition call : Type := fn * list value.

Record outcome (A : Type) : Type := Outcome {
  result : completion A;
  final : store;
  calls : list call
}.
Arguments Outcome {A} result final calls.
Arguments result {A} o.
Arguments final {A} o.
Arguments calls {A} o.

Definition M (A : Type) : Type := store -> outcome A.

#[global] Instance M_ret : MRet M :=
  fun A (a : A) s => Outcome (Normal a) s [].

#[global] Instance M_bind : MBind M :=
  fun A B (f : A -> M B) (m : M A) s =>
    let o := m s in
    match result o with
    | Normal a =>
        let o' := f a (final o) in
        Outcome (result o') (final o') (calls o ++ calls o')
    | Throw e => Outcome (Throw e) (final o) (calls o)
    end.

Definition throw {A : Type} (e : value) : M A :=
  fun s => Outcome (Throw e) s [].

(** What the caller observes of a computation when the record of calls is
    left out: its completion and the store it leaves. *)
Definition run {A : Type} (m : M A) (s : store) : completion A * store :=
  (result (m s), final (m s)).

(** The semantics of function objects: [Call f args s] is the completion of
    [f(...args)] started in store [s], and the store it leaves. *)
Definition semantics : Type :=
  fn -> list value -> store -> completion value * store.

(** [f(...args)]: one call, recorded. *)
Definition invoke (Call : semantics) (f : fn) (args : list value) : M value :=
  fun s => Outcome (fst (Call f args s)) (snd (Call f args s)) [(f, args)].

(** *** The [Map] methods the source uses *)

(** The table a reference denotes; a reference always denotes a [Map]. *)
Definition table (l : loc) (s : store) : gmap string fn := maps s !!! l.

(** [new Map()] *)
Definition Map_new : M loc :=
  fun s =>
    let l := fresh (dom (maps s)) in
    Outcome (Normal l) (Store (<[l := ∅]> (maps s)) (globals s)) [].

(** A table holds string keys only, so a key that is no string is absent. *)
Definition lookup_key (t : gmap string fn) (key : value) : option fn :=
  match key with
  | VStr k => t !! k
  | _ => None
  end.

(** [m.has(key)] *)
Definition Map_has (l : loc) (key : string) : M bool :=
  fun s => Outcome (Normal (bool_decide (is_Some (table l s !! key)))) s [].

(** [m.get(key)]; [None] is [undefined]. *)
Definition Map_get (l : loc) (key : value) : M (option fn) :=
  fun s => Outcome (Normal (lookup_key (table l s) key)) s [].

(** [m.set(key, handler)] *)
Definition Map_set (l : loc) (key : string) (handler : fn) : M unit :=
  fun s =>
    Outcome (Normal tt)
            (Store (<[l := <[key := handler]> (table l s)]> (maps s)) (globals s))
            [].

(** ** [src/receiver.ts] *)

Module Router.

Record t : Type := new { key : string; routes : loc }.

Definition to (this : t) (handler : fn) : M unit :=
  Map_set (routes this) (key this) handler.

End Router.

Module Receiver.

Record t : Type := Build { routes : loc }.

(** [new Receiver()]: the field initialiser [new Map()]. *)
Definition new : M t :=
  l ← Map_new; mret (Build l).

(** The error [route] throws. *)
Definition RouteConflict (key : string) : value :=
  VError ("The route on " +:+ dquote +:+ String_ key +:+ dquote
            +:+ " is already exists").

Definition route (this : t) (key : string) : M Router.t :=
  taken ← Map_has (routes this) key;
  if (taken : bool) then throw (RouteConflict key)
  else mret (Router.new key (routes this)).

Definition receive (Call : semantics) (this : t) (key args : value) : M value :=
  route ← Map_get (routes this) key;
  match route with
  | None => mret VUndefined
  | Some f => invoke Call f [args]
  end.

End Receiver.

(** ** [src/sender.ts] *)

Module Sender.

(** [new Sender(sender)] stores the transport adapter. *)
Record t : Type := new { sender : fn }.

(** [send(key, ...[args])]: [args] is the first element of the rest
    array, [undefined] when the caller passed none. *)
Definition send (Call : semantics) (this : t) (key : string)
    (rest : list value) : M value :=
  let args := nth 0 rest VUndefined in
  invoke Call (sender this) [VStr key; args].

End Sender.

(** ** [src/receiverWithContext.ts] *)

Module RouterWithContext.

Record t : Type := new { key : string; routes : loc }.

Definition to (this : t) (handler : fn) : M unit :=
  Map_set (routes this) (key this) handler.

End RouterWithContext.

Module ReceiverWithContext.

Record t : Type := Build { routes : loc }.

Definition new : M t :=
  l ← Map_new; mret (Build l).

Definition RouteConflict (key : string) : value :=
  VError ("The route on " +:+ dquote +:+ String_ key +:+ dquote
            +:+ " is already exists").

Definition route (this : t) (key : string) : M RouterWithContext.t :=
  taken ← Map_has (routes this) key;
  if (taken : bool) then throw (RouteConflict key)
  else mret (RouterWithContext.new key (routes this)).

Definition receive (Call : semantics) (this : t) (ctx key args : value)
    : M value :=
  route ← Map_get (routes this) key;
  match route with
  | None => mret VUndefined
  | Some f => invoke Call f [ctx; args]
  end.

End ReceiverWithContext.

(** ** [src/types.ts]: the schema utilities, as functions on type terms *)

Module Types.

(** The type terms the schemas of this repository are built from. *)
#[warnings="-register-all"]
Inductive ty : Type :=
| TUndefined
| TVoid
| TUnknown
| TNumber
| TString
| TObject (props : list (string * ty)).

(** A union type, as the list of its members. *)
Definition union : Type := list ty.

(** [Duplex<Req = undefined, Resp = void>] *)
Record DuplexT : Type := { Request : ty; Response : ty }.

Definition Duplex (Req Resp : option ty) : DuplexT :=
  {| Request := default TUndefined Req; Response := default TVoid Resp |}.

(** A schema: an object type from message keys to [Duplex] types. *)
Definition SchemaT : Type := list (string * DuplexT).

(** [keyof Schema] *)
Definition KeyOf (Schema : SchemaT) : list string := Schema.*1.

(** [Schema[Key]] *)
Definition at_key (Schema : SchemaT) (Key : string) : option DuplexT :=
  snd <$> find (fun p => bool_decide (p.1 = Key)) Schema.

(** [D[name]] for a [Duplex] type [D]. *)
Definition member (D : DuplexT) (name : string) : option ty :=
  if decide (name = "Request") then Some (Request D)
  else if decide (name = "Response") then Some (Response D)
  else None.

(** [Schema[Keys][name]] for a union of keys: indexed access distributes
    over the union. *)
Definition indexed (Schema : SchemaT) (Keys : list string) (name : string)
    : union :=
  omap (fun Key => D ← at_key Schema Key; member D name) Keys.

Definition RequestOf (Key : string) (Schema : SchemaT) : option ty :=
  D ← at_key Schema Key; member D "Request".

Definition ResponseOf (Key : string) (Schema : SchemaT) : option ty :=
  D ← at_key Schema Key; member D "Response".

Definition RequestsOf (Schema : SchemaT) : union :=
  indexed Schema (KeyOf Schema) "Request".

Definition ResponsesOf (Schema : SchemaT) : union :=
  indexed Schema (KeyOf Schema) "Request".

(** The result type of [SenderHandler<Schema>], under its [Promise]. *)
Definition SenderHandler_result (Schema : SchemaT) : union :=
  ResponsesOf Schema.

(** The result type of [Sender.send<Key>], under its [Promise]. *)
Definition send_result (Key : string) (Schema : SchemaT) : option ty :=
  ResponseOf Key Schema.

(** The result type of [Receiver.receive], written out in the source as
    [Schema[KeyOf<Schema>]["Response"]]. *)
Definition receive_result (Schema : SchemaT) : union :=
  indexed Schema (KeyOf Schema) "Response".

(** The result type of [ReceiverWithContext.receive]. *)
Definition receive_with_context_result (Schema : SchemaT) : union :=
  ResponsesOf Schema.




End Types.

(** ** [example/index.ts]: the schema, the handlers and the wiring *)

Module Demo.
Import Types.

(** [type Schema = { "math.add": Duplex<{a: number; b: number}, number>;
    "counter.increment": Duplex<number>; "monitring.ping": Duplex }] *)
Definition Schema : SchemaT :=
  [ ("math.add",
      Duplex (Some (TObject [("a", TNumber); ("b", TNumber)])) (Some TNumber));
    ("counter.increment", Duplex (Some TNumber) None);
    ("monitring.ping", Duplex None None) ].

(** The function objects: the three handlers of the example, and, beside
    them, an adapter that calls [receive] directly (the example's own
    adapter goes through the port and its timers), a handler that throws
    and a handler that returns a rejected promise. *)
Definition direct : fn := 0.    (* (key, args) => receiver.receive(key, args) *)
Definition add : fn := 1.       (* ({ a, b }) => Promise.resolve(a + b) *)
Definition increment : fn := 2. (* () => Promise.resolve() *)
Definition ping : fn := 3.      (* () => Promise.resolve() *)
Definition failing : fn := 4.   (* () => { throw new Error(...) } *)
Definition rejecting : fn := 5. (* () => Promise.reject(new Error(...)) *)

Definition prop (name : string) (fields : list (string * value)) : value :=
  default VUndefined (snd <$> find (fun p => bool_decide (p.1 = name)) fields).

(** What the handlers do on arguments of their request shape, with
    numbers taken as integers; the typed call sites build no other
    arguments, and on those the model throws. *)
Definition handlers : semantics :=
  fun f args s =>
    match f, args with
    | 1, VObject fields :: _ =>
        match prop "a" fields, prop "b" fields with
        | VNum a, VNum b => (Normal (VFulfilled (VNum (a + b))), s)
        | _, _ => (Throw (VError "unsupported operands"), s)
        end
    | 2, _ => (Normal (VFulfilled VUndefined), s)
    | 3, _ => (Normal (VFulfilled VUndefined), s)
    | 4, _ => (Throw (VError "handler failed"), s)
    | 5, _ => (Normal (VRejected (VError "handler rejected")), s)
    | _, _ => (Throw (VError "not a function"), s)
    end.

(** The same, with [direct] the adapter that calls [receive] of the
    receiver whose table is at [l]. *)
Definition wired (l : loc) : semantics :=
  fun f args s =>
    match f, args with
    | 0, [key; a] => run (Receiver.receive handlers (Receiver.Build l) key a) s
    | _, _ => handlers f args s
    end.

Definition empty : store := Store ∅ ∅.

(** [const receiver = new Receiver<Schema>()] and the three
    [receiver.route(...).to(...)] statements. *)
Definition setup : M Receiver.t :=
  receiver ← Receiver.new;
  r1 ← Receiver.route receiver "math.add";
  Router.to r1 add;;
  r2 ← Receiver.route receiver "counter.increment";
  Router.to r2 increment;;
  r3 ← Receiver.route receiver "monitring.ping";
  Router.to r3 ping;;
  mret receiver.

Definition receiver : Receiver.t := Receiver.Build 1%positive.
Definition wiredStore : store := final (setup empty).

(** The wired receiver with one more route, to the handler that throws, and
    with one to the handler that returns a rejected promise. *)
Definition brokenStore : store :=
  final ((r4 ← Receiver.route receiver "broken.throw";
          Router.to r4 failing;;
          r5 ← Receiver.route receiver "broken.reject";
          Router.to r5 rejecting) wiredStore).

End Demo.

(** ** Scripts: a client of a receiver, run against either class *)

Inductive command : Type :=
| Route (key : string)           (* routers.push(receiver.route(key)) *)
| To (i : nat) (handler : fn)    (* routers[i].to(handler) *)
| Receive (ctx key args : value).
    (* receiver.receive(key, args), or receiver.receive(ctx, key, args) *)

(** What the client sees of one command. *)
Inductive observation : Type :=
| Bound (key : string) (routes : loc)  (* a router came back *)
| Returned (v : value)
| Thrown (e : value)
| Unbound.                              (* no router at that index *)

(** The two classes behind one interface. *)
Record implementation : Type := {
  receiver : Type;
  router : Type;
  do_route : receiver -> string -> M router;
  do_to : router -> fn -> M unit;
  do_receive : receiver -> value -> value -> value -> M value;
  describe : router -> string * loc
}.

(** A handler of the base class behaves as [args => h(ctx, args)]. *)
Definition with_context (ctx : value) (Call : semantics) : semantics :=
  fun f args => Call f (ctx :: args).

Definition base (Call : semantics) : implementation := {|
  receiver := Receiver.t;
  router := Router.t;
  do_route := Receiver.route;
  do_to := Router.to;
  do_receive := fun r ctx key args =>
    Receiver.receive (with_context ctx Call) r key args;
  describe := fun rt => (Router.key rt, Router.routes rt)
|}.

Definition contextual (Call : semantics) : implementation := {|
  receiver := ReceiverWithContext.t;
  router := RouterWithContext.t;
  do_route := ReceiverWithContext.route;
  do_to := RouterWithContext.to;
  do_receive := ReceiverWithContext.receive Call;
  describe := fun rt => (RouterWithContext.key rt, RouterWithContext.routes rt)
|}.

Record trace (I : implementation) : Type := Trace {
  seen : list observation;
  routers : list (router I);
  current : store;
  called : list call
}.
Arguments Trace {I} seen routers current called.
Arguments seen {I} t.
Arguments routers {I} t.
Arguments current {I} t.
Arguments called {I} t.

(** One command; a thrown error is caught and observed, and the script
    goes on. *)
Definition step (I : implementation) (r : receiver I) (t : trace I)
    (c : command) : trace I :=
  match c with
  | Route key =>
      let o := do_route I r key (current t) in
      match result o with
      | Normal rt =>
          Trace (seen t ++ [Bound (describe I rt).1 (describe I rt).2])
                (routers t ++ [rt]) (final o) (called t ++ calls o)
      | Throw e =>
          Trace (seen t ++ [Thrown e]) (routers t) (final o)
                (called t ++ calls o)
      end
  | To i handler =>
      match routers t !! i with
      | Some rt =>
          let o := do_to I rt handler (current t) in
          match result o with
          | Normal _ =>
              Trace (seen t ++ [Returned VUndefined]) (routers t) (final o)
                    (called t ++ calls o)
          | Throw e =>
              Trace (seen t ++ [Thrown e]) (routers t) (final o)
                    (called t ++ calls o)
          end
      | None => Trace (seen t ++ [Unbound]) (routers t) (current t) (called t)
      end
  | Receive ctx key args =>
      let o := do_receive I r ctx key args (current t) in
      match result o with
      | Normal v =>
          Trace (seen t ++ [Returned v]) (routers t) (final o)
                (called t ++ calls o)
      | Throw e =>
          Trace (seen t ++ [Thrown e]) (routers t) (final o)
                (called t ++ calls o)
      end
  end.

Definition script (I : implementation) (r : receiver I) (cs : list command)
    (s : store) : trace I :=
  foldl (step I r) (Trace [] [] s []) cs.

(** A recorded call without its first argument. *)
Definition without_context (c : call) : call := (c.1, tail c.2).

(** The binder of the variant, read as a binder of the base class. *)
Definition plain (rt : RouterWithContext.t) : Router.t :=
  Router.new (RouterWithContext.key rt) (RouterWithContext.routes rt).

(** Two traces that a client cannot tell apart. *)
Definition alike (Call : semantics) (tc : trace (contextual Call))
    (tb : trace (base Call)) : Prop :=
  seen tc = seen tb
  /\ plain <$> routers tc = routers tb
  /\ current tc = current tb
  /\ map without_context (called tc) = called tb.


(** ** Registration as the example writes it *)

(** [receiver.route(key).to(handler)] *)
Definition register (r : Receiver.t) (key : string) (handler : fn) : M unit :=
  rt ← Receiver.route r key; Router.to rt handler.

(** A run of such statements, in order; an error thrown by one of them ends
    the run. *)
Fixpoint register_all (r : Receiver.t) (entries : list (string * fn))
    : M unit :=
  match entries with
  | [] => mret tt
  | (key, handler) :: rest => register r key handler;; register_all r rest
  end.

(** Two receivers constructed one after the other, and a route registered on
    the first. *)
Definition two_receivers (key : string) (handler : fn)
    : M (Receiver.t * Receiver.t) :=
  r1 ← Receiver.new;
  r2 ← Receiver.new;
  register r1 key handler;;
  mret (r1, r2).

(** Handlers for the context-carrying receiver made from one-argument
    handlers: [(ctx, args) => h(args)]. *)
Definition ignoring_context (Call : semantics) : semantics :=
  fun f args => Call f (tail args).

(** Function objects that leave every routing table as they found it. *)
Definition keeps_tables (Call : semantics) : Prop :=
  forall f args s, maps (Call f args s).2 = maps s.


(** ** [example/port.ts] *)

(** The port delivers a message between two timers of random length. A
    call of [sendMessage] returns its promise at the first [await]; what is
    left of it runs when its timers fire. The model keeps the calls in
    flight and lets any of them be the next to resume, which covers every
    choice of delays. The listener works on the store [mem]; it does not
    use the port itself. *)

Module Port.

(** A call of [sendMessage] in flight. *)
Inductive task : Type :=
| Waiting (promise : nat) (message : value)
    (* at the first [await]: the listener has not been called *)
| Returning (promise : nat) (ret : value).
    (* at the second [await]: [ret] is what the listener returned *)


Record t : Type := Build {
  listener : fn;                          (* [listener[0]] *)
  tasks : list task;
  settled : gmap nat (completion value);  (* how each promise ended *)
  issued : nat;                           (* promises created so far *)
  mem : store
}.

(** The module once loaded: [noop] is the function object [() => {}]. *)
Definition init (noop : fn) (s : store) : t := Build noop [] ∅ 0 s.

(** [addListener(l)] *)
Definition addListener (l : fn) (p : t) : t :=
  Build l (tasks p) (settled p) (issued p) (mem p).

(** [sendMessage(message)], up to the first [await]: the promise it
    returns, and the port with the call in flight. *)
Definition sendMessage (message : value) (p : t) : value * t :=
  (VPending (issued p),
   Build (listener p) (tasks p ++ [Waiting (issued p) message]) (settled p)
         (S (issued p)) (mem p)).

(** A timer of the [i]-th call in flight fires. After the first timer the
    listener in the slot is called with the message: when it returns, the
    call waits again; when it throws, the promise is rejected. After the
    second timer the promise is resolved with what the listener returned. *)
Definition fire (Call : semantics) (i : nat) (p : t) : option t :=
  match tasks p !! i with
  | None => None
  | Some (Waiting n message) =>
      Some match (Call (listener p) [message] (mem p)).1 with
           | Normal ret =>
               Build (listener p) (<[i := Returning n ret]> (tasks p))
                     (settled p) (issued p)
                     (Call (listener p) [message] (mem p)).2
           | Throw e =>
               Build (listener p) (delete i (tasks p))
                     (<[n := Throw e]> (settled p)) (issued p)
                     (Call (listener p) [message] (mem p)).2
           end
  | Some (Returning n ret) =>
      Some (Build (listener p) (delete i (tasks p))
                  (<[n := Normal ret]> (settled p)) (issued p) (mem p))
  end.

(** A schedule: which call resumes next, timer after timer. *)
Fixpoint fire_all (Call : semantics) (schedule : list nat) (p : t)
    : option t :=
  match schedule with
  | [] => Some p
  | i :: rest =>
      match fire Call i p with
      | Some q => fire_all Call rest q
      | None => None
      end
  end.

(** What awaiting promise [n] gives: nothing while it is not settled. *)
Definition outcome (p : t) (n : nat) : option (completion value) :=
  c ← settled p !! n; await c.

(** Timers still to fire: two for a call that waits for the listener, one
    for a call that waits to return. *)
Definition task_weight (t : task) : nat :=
  match t with
  | Waiting _ _ => 2
  | Returning _ _ => 1
  end.

Definition weight (p : t) : nat := sum_list_with task_weight (tasks p).





End Port.

(** ** [example/index.ts]: the listener and the adapter *)

Module Index.

(** The [TypeError] of destructuring [undefined] or [null]; the text is
    the engine's. *)
Definition TypeError : value :=
  VError "Cannot destructure the message as it is undefined or null.".

(** [{ key, args }] *)
Definition message (key args : value) : value :=
  VObject [("key", key); ("args", args)].

(** One name of [const { key, args } = message]: [undefined] and [null]
    cannot be destructured, an object gives its property, and a property
    that is not there, or any other value, gives [undefined]. *)
Definition get (name : string) (v : value) : completion value :=
  match v with
  | VUndefined | VNull => Throw TypeError
  | VObject fields => Normal (Demo.prop name fields)
  | _ => Normal VUndefined
  end.

(** [(message) => { const { key, args } = message;
                    return receiver.receive(key, args); }] *)
Definition listener_body (Call : semantics) (receiver : Receiver.t)
    (message : value) : M value :=
  match get "key" message, get "args" message with
  | Normal key, Normal args => Receiver.receive Call receiver key args
  | Throw e, _ => throw e
  | _, Throw e => throw e
  end.

(** [(key, args) => sendMessage({ key, args })] *)
Definition adapter (key args : value) (p : Port.t) : value * Port.t :=
  Port.sendMessage (message key args) p.

(** [sender.send(key, ...rest)] for the sender built on that adapter:
    [send] calls the adapter with the key and the first rest argument. *)
Definition send (key : string) (rest : list value) (p : Port.t)
    : value * Port.t :=
  adapter (VStr key) (nth 0 rest VUndefined) p.

End Index.


(** The example, wired: the function objects of [example/port.ts] and of
    the listener, beside the handlers, and the port after
    [addListener(...)]. *)
Module Wired.

Definition noop : fn := 6.       (* () => {} *)
Definition listening : fn := 7.  (* the listener given to addListener *)

Definition Call : semantics :=
  fun f args s =>
    match f, args with
    | 6, _ => (Normal VUndefined, s)
    | 7, message :: _ =>
        run (Index.listener_body Demo.handlers Demo.receiver message) s
    | _, _ => Demo.handlers f args s
    end.

Definition port : Port.t :=
  Port.addListener listening (Port.init noop Demo.wiredStore).

End Wired.


(** * Properties *)

(** ** The methods, unfolded *)

Lemma table_after_set (l : loc) (k : string) (h : fn) (s : store) :
  table l (final (Map_set l k h s)) = <[k := h]> (table l s).
Proof. unfold table; simpl. apply lookup_total_insert_eq. Qed.

Lemma table_after_set_other (l l' : loc) (k : string) (h : fn) (s : store) :
  l ≠ l' -> table l' (final (Map_set l k h s)) = table l' s.
Proof. intros Hne. unfold table; simpl. by apply lookup_total_insert_ne. Qed.

Lemma bind_unfold {A B : Type} (m : M A) (f : A -> M B) (s : store) :
  (m ≫= f) s =
    match result (m s) with
    | Normal a =>
        Outcome (result (f a (final (m s)))) (final (f a (final (m s))))
                (calls (m s) ++ calls (f a (final (m s))))
    | Throw e => Outcome (Throw e) (final (m s)) (calls (m s))
    end.
Proof. reflexivity. Qed.

(** One statement of a method body, once the outcome of its first call is
    known by [lem]. *)
Ltac bind_with lem :=
  rewrite bind_unfold, lem by done; cbn [result final calls app].

Lemma route_free (r : Receiver.t) (k : string) (s : store) :
  table (Receiver.routes r) s !! k = None ->
  Receiver.route r k s =
    Outcome (Normal (Router.new k (Receiver.routes r))) s [].
Proof.
  intros Hfree. unfold Receiver.route, mbind, M_bind, Map_has; simpl.
  rewrite Hfree. rewrite bool_decide_eq_false_2; [reflexivity|].
  by intros [? ?].
Qed.

Lemma route_taken (r : Receiver.t) (k : string) (s : store) :
  is_Some (table (Receiver.routes r) s !! k) ->
  Receiver.route r k s = Outcome (Throw (Receiver.RouteConflict k)) s [].
Proof.
  intros Htaken. unfold Receiver.route, mbind, M_bind, Map_has; simpl.
  by rewrite bool_decide_eq_true_2.
Qed.

Lemma route_keeps_store (r : Receiver.t) (k : string) (s : store) :
  final (Receiver.route r k s) = s /\ calls (Receiver.route r k s) = [].
Proof.
  destruct (table (Receiver.routes r) s !! k) as [h|] eqn:E.
  - rewrite route_taken; eauto.
  - rewrite route_free; auto.
Qed.

Lemma receive_unfold (Call : semantics) (r : Receiver.t) (key args : value)
    (s : store) :
  Receiver.receive Call r key args s =
    match lookup_key (table (Receiver.routes r) s) key with
    | Some f => Outcome (Call f [args] s).1 (Call f [args] s).2 [(f, [args])]
    | None => Outcome (Normal VUndefined) s []
    end.
Proof.
  unfold Receiver.receive, mbind, M_bind, Map_get; simpl.
  destruct (lookup_key _ key); reflexivity.
Qed.

Lemma send_unfold (Call : semantics) (sd : Sender.t) (k : string)
    (rest : list value) (s : store) :
  Sender.send Call sd k rest s =
    invoke Call (Sender.sender sd) [VStr k; nth 0 rest VUndefined] s.
Proof. reflexivity. Qed.

(** A receiver starts with an empty table. *)
Lemma new_empty (s : store) :
  match result (Receiver.new s) with
  | Normal r => table (Receiver.routes r) (final (Receiver.new s)) = ∅
  | Throw _ => False
  end.
Proof.
  unfold Receiver.new. rewrite bind_unfold. unfold Map_new.
  cbn [result final Receiver.routes]. unfold table; cbn [maps].
  apply lookup_total_insert_eq.
Qed.

Lemma example_setup :
  Demo.setup Demo.empty =
    Outcome (Normal Demo.receiver) Demo.wiredStore []
  /\ table 1%positive Demo.wiredStore =
       {[ "math.add" := Demo.add;
          "counter.increment" := Demo.increment;
          "monitring.ping" := Demo.ping ]}.
Proof. split; vm_compute; reflexivity. Qed.

(** ** Registration *)

(** C1. When key [k] already has a handler in the receiver's table, another
    [route(k)] throws the route-conflict error, calls nothing, and leaves
    the store as it was: the table still maps [k] to the first handler. *)
Theorem route_conflict (r : Receiver.t) (k : string) (h : fn) (s : store) :
  table (Receiver.routes r) s !! k = Some h ->
  Receiver.route r k s = Outcome (Throw (Receiver.RouteConflict k)) s []
  /\ table (Receiver.routes r) (final (Receiver.route r k s))
     = table (Receiver.routes r) s
  /\ table (Receiver.routes r) (final (Receiver.route r k s)) !! k = Some h.
Proof.
  intros Hreg.
  assert (Receiver.route r k s
          = Outcome (Throw (Receiver.RouteConflict k)) s []) as ->
    by (apply route_taken; eauto).
  simpl. auto.
Qed.

Lemma route_conflict_witness :
  table (Receiver.routes Demo.receiver) Demo.wiredStore !! "math.add"
    = Some Demo.add
  /\ Receiver.route Demo.receiver "math.add" Demo.wiredStore
     = Outcome (Throw (Receiver.RouteConflict "math.add")) Demo.wiredStore [].
Proof.
  split; [vm_compute; reflexivity|].
  apply (route_conflict Demo.receiver "math.add" Demo.add
           Demo.wiredStore).
  vm_compute; reflexivity.
Defined.

(** Registering the same key twice, from a table without the key: the
    first [route(k).to(h)] registers, the second [route(k)] throws, and the
    table is the old one with [k] bound to [h]. *)
Lemma register_twice (r : Receiver.t) (k : string) (h : fn) (s : store) :
  table (Receiver.routes r) s !! k = None ->
  let twice :=
    (rt ← Receiver.route r k; Router.to rt h;; Receiver.route r k) in
  result (twice s) = Throw (Receiver.RouteConflict k)
  /\ table (Receiver.routes r) (final (twice s))
     = <[k := h]> (table (Receiver.routes r) s).
Proof.
  intros Hfree twice. unfold twice.
  bind_with route_free.
  rewrite bind_unfold. cbn [Router.to Map_set result final calls app].
  rewrite route_taken.
  - cbn [result final]. split; [reflexivity|]. apply lookup_total_insert_eq.
  - unfold table; cbn [maps]. rewrite lookup_total_insert_eq, lookup_insert_eq.
    eauto.
Qed.

(** C8. [route(k)] by itself never changes the store and calls nothing, so
    every [receive] answers after it as before it; when [k] has no handler,
    [route(k)] returns the binder for [k], [receive(k, payload)] after it
    still returns undefined, and the entry appears once [to(h)] is called
    on the binder. *)
Theorem route_alone_registers_nothing (Call : semantics) (r : Receiver.t)
    (k : string) (s : store) :
  final (Receiver.route r k s) = s
  /\ calls (Receiver.route r k s) = []
  /\ (forall key payload,
        Receiver.receive Call r key payload (final (Receiver.route r k s))
        = Receiver.receive Call r key payload s)
  /\ (table (Receiver.routes r) s !! k = None ->
        Receiver.route r k s
          = Outcome (Normal (Router.new k (Receiver.routes r))) s []
        /\ table (Receiver.routes r) (final (Receiver.route r k s)) !! k = None
        /\ (forall payload,
              Receiver.receive Call r (VStr k) payload
                (final (Receiver.route r k s))
              = Outcome (Normal VUndefined) s [])
        /\ (forall h,
              table (Receiver.routes r)
                (final (Router.to (Router.new k (Receiver.routes r)) h s)) !! k
              = Some h)).
Proof.
  destruct (route_keeps_store r k s) as [Hs Hc].
  rewrite Hs, Hc. do 3 (split; [done|]).
  intros Hfree. split; [by apply route_free|]. split; [done|]. split.
  - intros payload. rewrite receive_unfold. cbn [lookup_key]. by rewrite Hfree.
  - intros h. unfold Router.to; cbn [Router.routes Router.key].
    rewrite table_after_set. apply lookup_insert_eq.
Qed.

Lemma route_alone_registers_nothing_witness :
  table (Receiver.routes Demo.receiver) Demo.wiredStore !! "unknown.key"
    = None
  /\ Receiver.receive Demo.handlers Demo.receiver (VStr "unknown.key")
       VNull
       (final (Receiver.route Demo.receiver "unknown.key"
                 Demo.wiredStore))
     = Outcome (Normal VUndefined) Demo.wiredStore [].
Proof.
  split; [vm_compute; reflexivity|].
  apply (route_alone_registers_nothing Demo.handlers Demo.receiver
           "unknown.key" Demo.wiredStore).
  vm_compute; reflexivity.
Defined.

(** C10. [to(handler)] always completes normally and writes
    [(key, handler)] into the table, whatever the table held at [key]; two
    binders obtained for one free key before either is used both succeed,
    and the handler given to the second [to] replaces the first. *)
Theorem to_overwrites :
  (forall (rt : Router.t) (h : fn) (s : store),
      Router.to rt h s =
        Outcome (Normal tt)
          (Store (<[Router.routes rt :=
                      <[Router.key rt := h]> (table (Router.routes rt) s)]>
                    (maps s))
                 (globals s))
          []
      /\ table (Router.routes rt) (final (Router.to rt h s))
         = <[Router.key rt := h]> (table (Router.routes rt) s))
  /\ (forall (r : Receiver.t) (k : string) (h1 h2 : fn) (s : store),
        table (Receiver.routes r) s !! k = None ->
        let both :=
          (rt1 ← Receiver.route r k;
           rt2 ← Receiver.route r k;
           Router.to rt1 h1;; Router.to rt2 h2) in
        result (both s) = Normal tt
        /\ table (Receiver.routes r) (final (both s))
           = <[k := h2]> (table (Receiver.routes r) s)
        /\ table (Receiver.routes r) (final (both s)) !! k = Some h2).
Proof.
  split.
  - intros rt h s. split; [reflexivity|].
    unfold Router.to. apply table_after_set.
  - intros r k h1 h2 s Hfree both.
    assert (table (Receiver.routes r) (final (both s))
            = <[k := h2]> (table (Receiver.routes r) s)) as Htable.
    { unfold both. do 2 bind_with route_free.
      rewrite bind_unfold. cbn [Router.to Map_set result final calls app].
      unfold table; cbn [maps Router.routes Router.key].
      rewrite !lookup_total_insert_eq. apply insert_insert_eq. }
    split; [|split].
    + unfold both. do 2 bind_with route_free. reflexivity.
    + exact Htable.
    + rewrite Htable. apply lookup_insert_eq.
Qed.

Lemma to_overwrites_witness :
  table (Receiver.routes Demo.receiver) Demo.wiredStore !! "late" = None
  /\ table (Receiver.routes Demo.receiver)
       (final
          ((rt1 ← Receiver.route Demo.receiver "late";
            rt2 ← Receiver.route Demo.receiver "late";
            Router.to rt1 Demo.add;; Router.to rt2 Demo.ping)
             Demo.wiredStore)) !! "late"
     = Some Demo.ping.
Proof.
  split; [vm_compute; reflexivity|].
  apply (proj2 to_overwrites Demo.receiver "late" Demo.add Demo.ping
           Demo.wiredStore).
  vm_compute; reflexivity.
Defined.

(** ** Dispatch *)

(** C2. When the table holds handler [h] at key [k], [receive(k, payload)]
    makes exactly one call, [h(payload)], and its completion and the store
    it leaves are those of that call. *)
Theorem receive_registered (Call : semantics) (r : Receiver.t) (k : string)
    (h : fn) (payload : value) (s : store) :
  table (Receiver.routes r) s !! k = Some h ->
  Receiver.receive Call r (VStr k) payload s =
    Outcome (Call h [payload] s).1 (Call h [payload] s).2 [(h, [payload])].
Proof.
  intros Hreg. rewrite receive_unfold. cbn [lookup_key]. by rewrite Hreg.
Qed.

Lemma receive_registered_witness :
  table (Receiver.routes Demo.receiver) Demo.wiredStore !! "math.add"
    = Some Demo.add
  /\ Receiver.receive Demo.handlers Demo.receiver (VStr "math.add")
       (VObject [("a", VNum 1); ("b", VNum 2)]) Demo.wiredStore
     = Outcome (Normal (VFulfilled (VNum 3))) Demo.wiredStore
         [(Demo.add, [VObject [("a", VNum 1); ("b", VNum 2)]])].
Proof.
  split; [vm_compute; reflexivity|].
  apply (receive_registered Demo.handlers Demo.receiver "math.add"
           Demo.add (VObject [("a", VNum 1); ("b", VNum 2)])
           Demo.wiredStore).
  vm_compute; reflexivity.
Defined.

(** C3. When the table has no entry for the key, [receive(key, payload)]
    returns undefined, calls no function, throws nothing and leaves the
    store as it was, whatever the payload. *)
Theorem receive_unregistered (Call : semantics) (r : Receiver.t)
    (key payload : value) (s : store) :
  lookup_key (table (Receiver.routes r) s) key = None ->
  Receiver.receive Call r key payload s = Outcome (Normal VUndefined) s [].
Proof.
  intros Habsent. rewrite receive_unfold. by rewrite Habsent.
Qed.

Lemma receive_unregistered_witness :
  lookup_key (table (Receiver.routes Demo.receiver) Demo.wiredStore)
    (VStr "unknown.key") = None
  /\ Receiver.receive Demo.handlers Demo.receiver (VStr "unknown.key")
       VNull Demo.wiredStore
     = Outcome (Normal VUndefined) Demo.wiredStore [].
Proof.
  split; [vm_compute; reflexivity|].
  apply (receive_unregistered Demo.handlers Demo.receiver
           (VStr "unknown.key") VNull Demo.wiredStore).
  vm_compute; reflexivity.
Defined.

(** A key that is no string is never in the table. *)
Lemma receive_non_string (Call : semantics) (r : Receiver.t)
    (key payload : value) (s : store) :
  (forall k, key ≠ VStr k) ->
  Receiver.receive Call r key payload s = Outcome (Normal VUndefined) s [].
Proof.
  intros Hkey. rewrite receive_unfold.
  destruct key as [| | | |k0| | | | |]; try reflexivity. by destruct (Hkey k0).
Qed.

(** C4. [send] makes exactly one call, to the adapter the sender was built
    with: with one argument [payload] the adapter receives
    [(key, payload)], with no argument it receives [(key, undefined)]; the
    completion and the store are those of the adapter's call. *)
Theorem send_forwards (Call : semantics) (sd : Sender.t) (k : string)
    (s : store) :
  (forall payload,
      Sender.send Call sd k [payload] s =
        Outcome (Call (Sender.sender sd) [VStr k; payload] s).1
                (Call (Sender.sender sd) [VStr k; payload] s).2
                [(Sender.sender sd, [VStr k; payload])])
  /\ Sender.send Call sd k [] s =
       Outcome (Call (Sender.sender sd) [VStr k; VUndefined] s).1
               (Call (Sender.sender sd) [VStr k; VUndefined] s).2
               [(Sender.sender sd, [VStr k; VUndefined])].
Proof. split; reflexivity. Qed.

(** C5. Round trip. When the table holds [h] at [k] and the sender's
    adapter, called with [(k, x)], does what [receive(k, x)] does, then
    [send(k, x)] completes as [h(x)] does and leaves the same store; so
    awaiting the one settles as awaiting the other. *)
Theorem round_trip (Call : semantics) (r : Receiver.t) (sd : Sender.t)
    (k : string) (h : fn) (x : value) (s : store) :
  table (Receiver.routes r) s !! k = Some h ->
  Call (Sender.sender sd) [VStr k; x] s
    = run (Receiver.receive Call r (VStr k) x) s ->
  run (Sender.send Call sd k [x]) s = Call h [x] s
  /\ await (result (Sender.send Call sd k [x] s)) = await (Call h [x] s).1.
Proof.
  intros Hreg Hadapter.
  assert (run (Sender.send Call sd k [x]) s = Call h [x] s) as Hrun.
  { unfold run. rewrite send_unfold. unfold invoke. cbn [result final nth].
    rewrite Hadapter. unfold run.
    rewrite receive_unfold. cbn [lookup_key]. rewrite Hreg.
    cbn [result final fst snd].
    by destruct (Call h [x] s). }
  split; [exact Hrun|].
  unfold run in Hrun. by rewrite <- Hrun.
Qed.

Lemma round_trip_witness :
  let Call := Demo.wired (Receiver.routes Demo.receiver) in
  let x := VObject [("a", VNum 1); ("b", VNum 2)] in
  table (Receiver.routes Demo.receiver) Demo.wiredStore !! "math.add"
    = Some Demo.add
  /\ Call Demo.direct [VStr "math.add"; x] Demo.wiredStore
     = run (Receiver.receive Call Demo.receiver (VStr "math.add") x)
         Demo.wiredStore
  /\ run (Sender.send Call (Sender.new Demo.direct) "math.add" [x])
       Demo.wiredStore
     = (Normal (VFulfilled (VNum 3)), Demo.wiredStore)
  /\ await
       (result
          (Sender.send Call (Sender.new Demo.direct) "math.add" [x]
             Demo.wiredStore))
     = Some (Normal (VNum 3)).
Proof.
  intros Call x.
  assert (table (Receiver.routes Demo.receiver) Demo.wiredStore
            !! "math.add" = Some Demo.add) as Hreg
    by (vm_compute; reflexivity).
  assert (Call Demo.direct [VStr "math.add"; x] Demo.wiredStore
          = run (Receiver.receive Call Demo.receiver (VStr "math.add") x)
              Demo.wiredStore) as Hadapter
    by (vm_compute; reflexivity).
  destruct (round_trip Call Demo.receiver (Sender.new Demo.direct)
              "math.add" Demo.add x Demo.wiredStore Hreg Hadapter)
    as [Hrun Hawait].
  split; [exact Hreg|]. split; [exact Hadapter|]. split.
  - rewrite Hrun. vm_compute; reflexivity.
  - rewrite Hawait. vm_compute; reflexivity.
Defined.

(** The scenario of the example: the three sends through the direct
    adapter, and a message nobody handles. *)
Lemma scenario :
  let Call := Demo.wired (Receiver.routes Demo.receiver) in
  let sender := Sender.new Demo.direct in
  await (result (Sender.send Call sender "math.add"
                   [VObject [("a", VNum 1); ("b", VNum 2)]] Demo.wiredStore))
    = Some (Normal (VNum 3))
  /\ await (result (Sender.send Call sender "counter.increment" [VNum 10]
                      Demo.wiredStore))
     = Some (Normal VUndefined)
  /\ await (result (Sender.send Call sender "monitring.ping" []
                      Demo.wiredStore))
     = Some (Normal VUndefined)
  /\ Receiver.receive Call Demo.receiver (VStr "unknown.key") VNull
       Demo.wiredStore
     = Outcome (Normal VUndefined) Demo.wiredStore [].
Proof. repeat split; vm_compute; reflexivity. Qed.

(** C7. A failure of the handler in [receive], or of the adapter in
    [send], reaches the caller as it is: when the one call made completes
    with [c] and [c] is a failure with error [e] (a thrown [e], or a
    promise rejected with [e]), the method completes with that same [c],
    having made that call only. *)
Theorem failure_propagates (Call : semantics) :
  (forall (r : Receiver.t) (k : string) (h : fn) (payload : value)
          (s s' : store) (c : completion value) (e : value),
      table (Receiver.routes r) s !! k = Some h ->
      Call h [payload] s = (c, s') ->
      await c = Some (Throw e) ->
      Receiver.receive Call r (VStr k) payload s
        = Outcome c s' [(h, [payload])])
  /\ (forall (sd : Sender.t) (k : string) (rest : list value)
             (s s' : store) (c : completion value) (e : value),
        Call (Sender.sender sd) [VStr k; nth 0 rest VUndefined] s = (c, s') ->
        await c = Some (Throw e) ->
        Sender.send Call sd k rest s
          = Outcome c s'
              [(Sender.sender sd, [VStr k; nth 0 rest VUndefined])]).
Proof.
  split.
  - intros r k h payload s s' c e Hreg Hcall _.
    rewrite receive_unfold. cbn [lookup_key]. by rewrite Hreg, Hcall.
  - intros sd k rest s s' c e Hcall _.
    rewrite send_unfold. unfold invoke. by rewrite Hcall.
Qed.

Lemma failure_propagates_witness :
  let boom := VError "handler failed" in
  Receiver.receive Demo.handlers Demo.receiver (VStr "broken.throw")
    VNull Demo.brokenStore
  = Outcome (Throw boom) Demo.brokenStore [(Demo.failing, [VNull])]
  /\ Receiver.receive Demo.handlers Demo.receiver (VStr "broken.reject")
       VNull Demo.brokenStore
     = Outcome (Normal (VRejected (VError "handler rejected")))
         Demo.brokenStore [(Demo.rejecting, [VNull])]
  /\ Sender.send Demo.handlers (Sender.new Demo.failing) "math.add"
       [VNum 7] Demo.wiredStore
     = Outcome (Throw boom) Demo.wiredStore
         [(Demo.failing, [VStr "math.add"; VNum 7])].
Proof.
  intros boom.
  destruct (failure_propagates Demo.handlers) as [Hreceive Hsend].
  split; [|split].
  - apply (Hreceive Demo.receiver "broken.throw" Demo.failing VNull
             Demo.brokenStore Demo.brokenStore (Throw boom) boom);
      vm_compute; reflexivity.
  - apply (Hreceive Demo.receiver "broken.reject" Demo.rejecting VNull
             Demo.brokenStore Demo.brokenStore
             (Normal (VRejected (VError "handler rejected")))
             (VError "handler rejected"));
      vm_compute; reflexivity.
  - apply (Hsend (Sender.new Demo.failing) "math.add" [VNum 7]
             Demo.wiredStore Demo.wiredStore (Throw boom) boom);
      vm_compute; reflexivity.
Defined.

(** ** The schema utilities *)

(** C6. [ResponsesOf<Schema>] is written with the member name of the
    request: for every schema it is the same union as
    [RequestsOf<Schema>]. On the schema of the example the result type of
    the transport adapter is therefore the union of the request types,
    which holds the request object type of the first key and misses the
    response type [void] of the other two, whereas [ResponseOf], which
    types the result of [send], and the result type written out in
    [Receiver.receive] select the response. *)
Theorem ResponsesOf_selects_Request :
  (forall Schema, Types.ResponsesOf Schema = Types.RequestsOf Schema)
  /\ Types.SenderHandler_result Demo.Schema
     = [ Types.TObject [("a", Types.TNumber); ("b", Types.TNumber)];
         Types.TNumber; Types.TUndefined ]
  /\ Types.receive_result Demo.Schema
     = [ Types.TNumber; Types.TVoid; Types.TVoid ]
  /\ (forall Key D rest,
        Types.send_result Key ((Key, D) :: rest) = Some (Types.Response D))
  /\ Types.send_result "counter.increment" Demo.Schema = Some Types.TVoid
  /\ (Types.TVoid ∉ Types.SenderHandler_result Demo.Schema)
  /\ (Types.SenderHandler_result Demo.Schema
      ≠ Types.receive_result Demo.Schema).
Proof.
  split; [reflexivity|].
  split; [vm_compute; reflexivity|].
  split; [vm_compute; reflexivity|].
  split.
  { intros Key D rest.
    unfold Types.send_result, Types.ResponseOf, Types.at_key.
    cbn [find fst]. rewrite bool_decide_eq_true_2 by reflexivity.
    reflexivity. }
  split; [vm_compute; reflexivity|].
  split.
  - intros Hin. apply list_elem_of_In in Hin. vm_compute in Hin.
    destruct Hin as [H|[H|[H|[]]]]; discriminate H.
  - vm_compute. discriminate.
Qed.

(** ** The context-carrying variant *)

Section Simulation.

Variable Call : semantics.

Lemma conflict_same (k : string) :
  ReceiverWithContext.RouteConflict k = Receiver.RouteConflict k.
Proof. reflexivity. Qed.

Lemma route_same (l : loc) (k : string) (s : store) :
  let c := ReceiverWithContext.route (ReceiverWithContext.Build l) k s in
  let b := Receiver.route (Receiver.Build l) k s in
  match result c, result b with
  | Normal rtc, Normal rtb => plain rtc = rtb
  | Throw ec, Throw eb => ec = eb /\ eb = Receiver.RouteConflict k
  | _, _ => False
  end
  /\ final c = final b /\ calls c = [] /\ calls b = [].
Proof.
  unfold ReceiverWithContext.route, Receiver.route.
  rewrite !bind_unfold. unfold Map_has.
  cbn [result final calls ReceiverWithContext.routes Receiver.routes].
  destruct (bool_decide (is_Some (table l s !! k))); cbn; auto.
Qed.

Lemma to_same (rt : RouterWithContext.t) (h : fn) (s : store) :
  RouterWithContext.to rt h s = Router.to (plain rt) h s.
Proof. reflexivity. Qed.

Lemma receive_same (l : loc) (ctx key args : value) (s : store) :
  let c := ReceiverWithContext.receive Call (ReceiverWithContext.Build l)
             ctx key args s in
  let b := Receiver.receive (with_context ctx Call) (Receiver.Build l)
             key args s in
  result c = result b /\ final c = final b
  /\ map without_context (calls c) = calls b.
Proof.
  unfold ReceiverWithContext.receive, Receiver.receive.
  rewrite !bind_unfold. unfold Map_get.
  cbn [result final calls ReceiverWithContext.routes Receiver.routes].
  destruct (lookup_key (table l s) key) as [f|]; cbn; auto.
Qed.

Lemma step_alike (l : loc) (c : command) (tc : trace (contextual Call))
    (tb : trace (base Call)) :
  alike Call tc tb ->
  alike Call (step (contextual Call) (ReceiverWithContext.Build l) tc c)
        (step (base Call) (Receiver.Build l) tb c).
Proof.
  destruct tc as [seenc routersc sc calledc], tb as [seenb routersb sb calledb].
  unfold alike.
  cbn [seen routers current called router receiver contextual base] in *.
  intros (-> & <- & -> & <-).
  destruct c as [k | i h | ctx key args]; unfold step;
    cbn [seen routers current called do_route do_to do_receive describe
         router receiver contextual base].
  - destruct (route_same l k sb) as (Hres & -> & -> & ->).
    cbv zeta in Hres.
    destruct (result (ReceiverWithContext.route _ k sb)) as [rtc | ec];
      destruct (result (Receiver.route _ k sb)) as [rtb | eb];
      try contradiction; cbn [seen routers current called].
    + subst rtb. rewrite fmap_app, !app_nil_r. auto.
    + destruct Hres as [-> _]. rewrite !app_nil_r. auto.
  - rewrite list_lookup_fmap.
    destruct (routersc !! i) as [rt|]; cbn [fmap option_fmap option_map];
      [|by auto].
    rewrite to_same.
    cbn [Router.to Map_set result seen routers current called final calls].
    rewrite !app_nil_r. auto.
  - destruct (receive_same l ctx key args sb) as (Hres & Hfin & Hcalls).
    cbv zeta in Hres, Hfin, Hcalls. rewrite Hres.
    destruct (result (Receiver.receive _ _ key args sb));
      cbn [seen routers current called];
      rewrite map_app, Hfin, Hcalls; auto.
Qed.

Lemma foldl_alike (l : loc) (cs : list command) :
  forall tc tb,
    alike Call tc tb ->
    alike Call
      (foldl (step (contextual Call) (ReceiverWithContext.Build l)) tc cs)
      (foldl (step (base Call) (Receiver.Build l)) tb cs).
Proof.
  induction cs as [| c cs IH]; intros tc tb Halike; cbn [foldl].
  - exact Halike.
  - apply IH. by apply step_alike.
Qed.

(** The commands of the variant, one at a time. *)
Lemma step_route_taken (l : loc) (k : string) (t : trace (contextual Call)) :
  is_Some (table l (current t) !! k) ->
  step (contextual Call) (ReceiverWithContext.Build l) t (Route k)
  = Trace (seen t ++ [Thrown (Receiver.RouteConflict k)]) (routers t)
      (current t) (called t ++ []).
Proof.
  intros Htaken. unfold step. cbn [do_route contextual].
  unfold ReceiverWithContext.route. rewrite bind_unfold. unfold Map_has.
  cbn [result final calls ReceiverWithContext.routes].
  by rewrite bool_decide_eq_true_2.
Qed.

Lemma step_route_free (l : loc) (k : string) (t : trace (contextual Call)) :
  table l (current t) !! k = None ->
  step (contextual Call) (ReceiverWithContext.Build l) t (Route k)
  = Trace (seen t ++ [Bound k l])
      (routers t ++ [RouterWithContext.new k l]) (current t) (called t ++ []).
Proof.
  intros Hfree. unfold step. cbn [do_route contextual].
  unfold ReceiverWithContext.route. rewrite bind_unfold. unfold Map_has.
  cbn [result final calls ReceiverWithContext.routes].
  rewrite Hfree, bool_decide_eq_false_2; [reflexivity|].
  by intros [? ?].
Qed.

Lemma step_to_bound (l : loc) (i : nat) (h : fn) (rt : RouterWithContext.t)
    (t : trace (contextual Call)) :
  routers t !! i = Some rt ->
  step (contextual Call) (ReceiverWithContext.Build l) t (To i h)
  = Trace (seen t ++ [Returned VUndefined]) (routers t)
      (final (RouterWithContext.to rt h (current t))) (called t ++ []).
Proof.
  intros Hbound. unfold step. cbn [router do_to contextual] in *.
  by rewrite Hbound.
Qed.

Lemma step_to_unbound (l : loc) (i : nat) (h : fn)
    (t : trace (contextual Call)) :
  routers t !! i = None ->
  step (contextual Call) (ReceiverWithContext.Build l) t (To i h)
  = Trace (seen t ++ [Unbound]) (routers t) (current t) (called t).
Proof.
  intros Hunbound. unfold step. cbn [router do_to contextual] in *.
  by rewrite Hunbound.
Qed.

(** Whatever the table held, after [route(k)] and [to(h)] on the binder it
    may have returned, a further [route(k)] on the variant throws the same
    error as the base class. *)
Lemma conflict_with_context (l : loc) (k : string) (h : fn) (s : store) :
  last (seen (script (contextual Call) (ReceiverWithContext.Build l)
                [Route k; To 0 h; Route k] s))
  = Some (Thrown (Receiver.RouteConflict k)).
Proof.
  unfold script; cbn [foldl].
  destruct (table l s !! k) as [h0|] eqn:Hk.
  - rewrite (step_route_taken l k (Trace [] [] s []))
      by (cbn [current]; rewrite Hk; eauto).
    cbn [seen routers current called].
    rewrite step_to_unbound by reflexivity.
    cbn [seen routers current called].
    rewrite step_route_taken by (cbn [current]; rewrite Hk; eauto).
    cbn [seen]. apply last_snoc.
  - rewrite (step_route_free l k (Trace [] [] s [])) by exact Hk.
    cbn [seen routers current called].
    rewrite (step_to_bound l 0 h (RouterWithContext.new k l)) by reflexivity.
    cbn [seen routers current called].
    rewrite step_route_taken.
    + cbn [seen]. apply last_snoc.
    + cbn [current]. unfold RouterWithContext.to.
      cbn [RouterWithContext.routes RouterWithContext.key].
      rewrite table_after_set, lookup_insert_eq. eauto.
Qed.

End Simulation.

(** C9. Run any script of [route], [to] and [receive] commands against a
    [ReceiverWithContext] and against a [Receiver] on the same table, each
    handler [h] of the [Receiver] standing for [args => h(ctx, args)]: the
    client observes the same returns and the same thrown errors (the
    route-conflict error on a taken key among them), the binders name the
    same keys and table, the stores end equal, and the recorded calls are
    the same once the context argument is dropped. *)
Theorem context_variant_alike (Call : semantics) (l : loc)
    (cs : list command) (s : store) :
  seen (script (contextual Call) (ReceiverWithContext.Build l) cs s)
    = seen (script (base Call) (Receiver.Build l) cs s)
  /\ describe (contextual Call)
       <$> routers (script (contextual Call) (ReceiverWithContext.Build l) cs s)
     = describe (base Call)
         <$> routers (script (base Call) (Receiver.Build l) cs s)
  /\ current (script (contextual Call) (ReceiverWithContext.Build l) cs s)
     = current (script (base Call) (Receiver.Build l) cs s)
  /\ map without_context
       (called (script (contextual Call) (ReceiverWithContext.Build l) cs s))
     = called (script (base Call) (Receiver.Build l) cs s)
  /\ (forall k h,
        last (seen (script (contextual Call) (ReceiverWithContext.Build l)
                      [Route k; To 0 h; Route k] s))
        = Some (Thrown (Receiver.RouteConflict k))).
Proof.
  destruct (foldl_alike Call l cs (Trace [] [] s []) (Trace [] [] s []))
    as (Hseen & Hrouters & Hcurrent & Hcalled).
  { repeat split. }
  unfold script. split; [exact Hseen|]. split.
  { rewrite <- Hrouters, <- list_fmap_compose. reflexivity. }
  split; [exact Hcurrent|]. split; [exact Hcalled|].
  intros k h. apply conflict_with_context.
Qed.

(** * Further properties of the receiver *)

(** ** Runs of registrations *)

Lemma register_free (r : Receiver.t) (k : string) (h : fn) (s : store) :
  table (Receiver.routes r) s !! k = None ->
  register r k h s
  = Outcome (Normal tt) (final (Map_set (Receiver.routes r) k h s)) [].
Proof. intros Hfree. unfold register. bind_with route_free. reflexivity. Qed.

Lemma register_taken (r : Receiver.t) (k : string) (h : fn) (s : store) :
  is_Some (table (Receiver.routes r) s !! k) ->
  register r k h s = Outcome (Throw (Receiver.RouteConflict k)) s [].
Proof. intros Htaken. unfold register. bind_with route_taken. reflexivity. Qed.

Lemma entries_cons (k : string) (h : fn) (rest : list (string * fn))
    (t : gmap string fn) :
  k ∉ rest.*1 ->
  (list_to_map rest : gmap string fn) ∪ <[k := h]> t
  = (list_to_map ((k, h) :: rest) : gmap string fn) ∪ t.
Proof.
  intros Hk. rewrite list_to_map_cons, <- insert_union_l.
  symmetry. apply insert_union_r. by apply not_elem_of_list_to_map.
Qed.

Lemma register_all_store (r : Receiver.t) (entries : list (string * fn)) :
  forall s,
    NoDup entries.*1 ->
    (forall k, k ∈ entries.*1 -> table (Receiver.routes r) s !! k = None) ->
    entries ≠ [] ->
    register_all r entries s
    = Outcome (Normal tt)
        (Store (<[Receiver.routes r :=
                    list_to_map entries ∪ table (Receiver.routes r) s]>
                  (maps s))
               (globals s))
        [].
Proof.
  induction entries as [| [k h] rest IH]; intros s Hnodup Hfree Hne;
    [done|].
  apply NoDup_cons in Hnodup as [Hk Hrest].
  cbn [register_all]. rewrite bind_unfold.
  rewrite register_free by (apply Hfree; left).
  cbn [result final calls app Map_set].
  destruct rest as [| e rest'].
  - cbn [register_all mret M_ret result final calls].
    rewrite <- (entries_cons k h []) by exact Hk.
    cbn [list_to_map foldr]. by rewrite (left_id_L ∅ (∪)).
  - rewrite IH; [|done| |done].
    + cbn [result final calls maps globals]. unfold table at 1; cbn [maps].
      rewrite lookup_total_insert_eq, insert_insert_eq.
      by rewrite entries_cons.
    + intros k' Hk'. unfold table; cbn [maps].
      rewrite lookup_total_insert_eq, lookup_insert_ne.
      * apply Hfree. by right.
      * intros ->. by apply Hk.
Qed.

(** X1. A run of [route(k).to(h)] statements over distinct keys, none of
    them in the table yet, completes normally, calls nothing, and leaves
    the receiver's table as the old one with every entry added; other
    tables and the captured variables are as before. *)
Theorem register_all_ok (r : Receiver.t) (entries : list (string * fn))
    (s : store) :
  NoDup entries.*1 ->
  (forall k, k ∈ entries.*1 -> table (Receiver.routes r) s !! k = None) ->
  result (register_all r entries s) = Normal tt
  /\ calls (register_all r entries s) = []
  /\ table (Receiver.routes r) (final (register_all r entries s))
     = list_to_map entries ∪ table (Receiver.routes r) s
  /\ (forall l, l ≠ Receiver.routes r ->
        table l (final (register_all r entries s)) = table l s)
  /\ globals (final (register_all r entries s)) = globals s.
Proof.
  intros Hnodup Hfree.
  destruct entries as [| e rest].
  - cbn [register_all mret M_ret result final calls list_to_map foldr].
    by rewrite (left_id_L ∅ (∪)).
  - rewrite register_all_store by done.
    cbn [result final calls globals]. unfold table; cbn [maps].
    rewrite lookup_total_insert_eq.
    do 3 (split; [done|]). split; [|done].
    intros l Hl. by rewrite lookup_total_insert_ne.
Qed.

Lemma register_all_ok_witness :
  table (Receiver.routes Demo.receiver)
    (final (register_all Demo.receiver
              [("late", Demo.add); ("later", Demo.ping)] Demo.wiredStore))
  = list_to_map [("late", Demo.add); ("later", Demo.ping)]
      ∪ table (Receiver.routes Demo.receiver) Demo.wiredStore.
Proof.
  apply (register_all_ok Demo.receiver
           [("late", Demo.add); ("later", Demo.ping)] Demo.wiredStore).
  - apply (bool_decide_unpack _). vm_compute. exact I.
  - intros k Hk. apply list_elem_of_In in Hk.
    destruct Hk as [<-|[<-|[]]]; vm_compute; reflexivity.
Defined.

(** X2. When a run of registrations reaches a key that is taken, in the
    table from the start or by an earlier statement of the run, it throws
    the route-conflict error for that key there: the entries before it stay
    registered, the ones after it are not. *)
Theorem register_all_conflict (r : Receiver.t) (pre post : list (string * fn))
    (k : string) (h : fn) :
  forall s,
    NoDup pre.*1 ->
    (forall k', k' ∈ pre.*1 -> table (Receiver.routes r) s !! k' = None) ->
    is_Some ((list_to_map pre ∪ table (Receiver.routes r) s) !! k) ->
    result (register_all r (pre ++ (k, h) :: post) s)
    = Throw (Receiver.RouteConflict k)
    /\ table (Receiver.routes r)
         (final (register_all r (pre ++ (k, h) :: post) s))
       = list_to_map pre ∪ table (Receiver.routes r) s.
Proof.
  induction pre as [| [k0 h0] pre IH]; intros s Hnodup Hfree Htaken.
  - cbn [app register_all list_to_map foldr] in *.
    rewrite (left_id_L ∅ (∪)) in Htaken. rewrite (left_id_L ∅ (∪)).
    rewrite bind_unfold, register_taken by done.
    cbn [result final]. done.
  - apply NoDup_cons in Hnodup as [Hk0 Hpre].
    cbn [app register_all]. rewrite bind_unfold.
    rewrite register_free by (apply Hfree; left).
    cbn [result final calls].
    assert (table (Receiver.routes r)
              (final (Map_set (Receiver.routes r) k0 h0 s))
            = <[k0 := h0]> (table (Receiver.routes r) s)) as Hset
      by apply table_after_set.
    destruct (IH (final (Map_set (Receiver.routes r) k0 h0 s)))
      as [Hres Htab].
    + done.
    + intros k' Hk'. rewrite Hset, lookup_insert_ne.
      * apply Hfree. by right.
      * intros ->. by apply Hk0.
    + by rewrite Hset, entries_cons.
    + rewrite Hres, Htab, Hset. by rewrite entries_cons.
Qed.

Lemma register_all_conflict_witness :
  result (register_all Demo.receiver
            ([("late", Demo.add)] ++ ("late", Demo.ping) :: [("later", Demo.ping)])
            Demo.wiredStore)
  = Throw (Receiver.RouteConflict "late").
Proof.
  apply (register_all_conflict Demo.receiver [("late", Demo.add)]
           [("later", Demo.ping)] "late" Demo.ping Demo.wiredStore).
  - apply (bool_decide_unpack _). vm_compute. exact I.
  - intros k Hk. apply list_elem_of_In in Hk.
    destruct Hk as [<-|[]]; vm_compute; reflexivity.
  - vm_compute. eauto.
Defined.

(** X3. The order of registrations does not matter: two runs over the same
    distinct free entries, in any two orders, leave the same store. *)
Theorem register_all_permutation (r : Receiver.t)
    (entries entries' : list (string * fn)) (s : store) :
  entries ≡ₚ entries' ->
  NoDup entries.*1 ->
  (forall k, k ∈ entries.*1 -> table (Receiver.routes r) s !! k = None) ->
  register_all r entries s = register_all r entries' s.
Proof.
  intros Hperm Hnodup Hfree.
  destruct entries as [| e rest].
  - apply Permutation_nil in Hperm. by subst.
  - assert (entries' ≠ []) as Hne'.
    { intros ->. symmetry in Hperm. by apply Permutation_nil in Hperm. }
    rewrite !register_all_store; try done.
    + by rewrite (list_to_map_proper _ _ Hnodup Hperm).
    + by rewrite <- Hperm.
    + intros k Hk. apply Hfree. by rewrite Hperm.
Qed.

Lemma register_all_permutation_witness :
  register_all Demo.receiver [("late", Demo.add); ("later", Demo.ping)]
    Demo.wiredStore
  = register_all Demo.receiver [("later", Demo.ping); ("late", Demo.add)]
      Demo.wiredStore.
Proof.
  apply (register_all_permutation Demo.receiver
           [("late", Demo.add); ("later", Demo.ping)]
           [("later", Demo.ping); ("late", Demo.add)] Demo.wiredStore).
  - apply perm_swap.
  - apply (bool_decide_unpack _). vm_compute. exact I.
  - intros k Hk. apply list_elem_of_In in Hk.
    destruct Hk as [<-|[<-|[]]]; vm_compute; reflexivity.
Defined.

(** ** Receivers and keys do not interfere *)

Lemma new_unfold (s : store) :
  Receiver.new s
  = Outcome (Normal (Receiver.Build (fresh (dom (maps s)))))
      (Store (<[fresh (dom (maps s)) := ∅]> (maps s)) (globals s)) [].
Proof. reflexivity. Qed.

(** X4. Two receivers constructed one after the other own different
    tables: after a route is registered on the first, the first dispatches
    the key to the handler, the second still answers undefined to every
    key, and every table that existed before is as it was. *)
Theorem receivers_independent (Call : semantics) (k : string) (h : fn)
    (payload : value) (s : store) :
  match result (two_receivers k h s) with
  | Normal (r1, r2) =>
      Receiver.routes r1 ≠ Receiver.routes r2
      /\ table (Receiver.routes r1) (final (two_receivers k h s)) = {[ k := h ]}
      /\ table (Receiver.routes r2) (final (two_receivers k h s)) = ∅
      /\ Receiver.receive Call r1 (VStr k) payload
           (final (two_receivers k h s))
         = invoke Call h [payload] (final (two_receivers k h s))
      /\ (forall key,
            Receiver.receive Call r2 key payload (final (two_receivers k h s))
            = Outcome (Normal VUndefined) (final (two_receivers k h s)) [])
      /\ (forall l, l ∈ dom (maps s) ->
            table l (final (two_receivers k h s)) = table l s)
  | Throw _ => False
  end.
Proof.
  set (l1 := fresh (dom (maps s))).
  set (m1 := <[l1 := ∅]> (maps s) : gmap loc (gmap string fn)).
  set (l2 := fresh (dom m1)).
  set (s2 := Store (<[l2 := ∅]> m1) (globals s)).
  assert (l1 ∉ dom (maps s)) as Hl1 by apply is_fresh.
  assert (l2 ∉ dom m1) as Hl2 by apply is_fresh.
  assert (l1 ≠ l2) as Hne.
  { intros Heq. apply Hl2. rewrite <- Heq. unfold m1.
    rewrite dom_insert. set_solver. }
  assert (table l1 s2 = ∅) as Hempty.
  { unfold table, s2; cbn [maps].
    rewrite lookup_total_insert_ne by done. unfold m1.
    apply lookup_total_insert_eq. }
  assert (two_receivers k h s
          = Outcome (Normal (Receiver.Build l1, Receiver.Build l2))
              (final (Map_set l1 k h s2)) []) as ->.
  { unfold two_receivers.
    rewrite bind_unfold, new_unfold. cbn [result final calls app].
    rewrite bind_unfold, new_unfold. cbn [result final calls app maps globals].
    fold l1 m1 l2 s2.
    rewrite bind_unfold, (register_free (Receiver.Build l1) k h s2)
      by (cbn [Receiver.routes]; by rewrite Hempty).
    reflexivity. }
  cbn [result final Receiver.routes].
  assert (table l1 (final (Map_set l1 k h s2)) = {[ k := h ]}) as Ht1.
  { rewrite table_after_set, Hempty. apply insert_empty. }
  assert (table l2 (final (Map_set l1 k h s2)) = ∅) as Ht2.
  { rewrite table_after_set_other by done.
    unfold table, s2; cbn [maps]. apply lookup_total_insert_eq. }
  split; [done|]. split; [done|]. split; [done|]. split; [|split].
  - rewrite receive_unfold. cbn [Receiver.routes lookup_key].
    by rewrite Ht1, lookup_singleton_eq.
  - intros key. rewrite receive_unfold. cbn [Receiver.routes].
    rewrite Ht2. by destruct key.
  - intros l Hl.
    assert (l ≠ l1) as Hll1 by (intros ->; done).
    assert (l ≠ l2) as Hll2.
    { intros ->. apply Hl2. unfold m1. rewrite dom_insert. set_solver. }
    rewrite table_after_set_other by done.
    unfold table, s2, m1; cbn [maps].
    by rewrite !lookup_total_insert_ne.
Qed.

(** X5. [to(handler)] changes the entry of the binder's key and nothing
    else: every other key of the table, every other table and the captured
    variables are as before, and no function is called. *)
Theorem to_changes_one_entry (rt : Router.t) (h : fn) (s : store) :
  (forall k, k ≠ Router.key rt ->
     table (Router.routes rt) (final (Router.to rt h s)) !! k
     = table (Router.routes rt) s !! k)
  /\ (forall l, l ≠ Router.routes rt ->
        table l (final (Router.to rt h s)) = table l s)
  /\ globals (final (Router.to rt h s)) = globals s
  /\ calls (Router.to rt h s) = [].
Proof.
  unfold Router.to. split; [|split; [|done]].
  - intros k Hk. rewrite table_after_set. by apply lookup_insert_ne.
  - intros l Hl. by apply table_after_set_other.
Qed.

Lemma to_changes_one_entry_witness :
  "monitring.ping" ≠ "math.add"
  /\ table (Receiver.routes Demo.receiver)
       (final (Router.to (Router.new "math.add" (Receiver.routes Demo.receiver))
                 Demo.ping Demo.wiredStore)) !! "monitring.ping"
     = table (Receiver.routes Demo.receiver) Demo.wiredStore
         !! "monitring.ping".
Proof.
  split; [discriminate|].
  exact (proj1 (to_changes_one_entry
                  (Router.new "math.add" (Receiver.routes Demo.receiver))
                  Demo.ping Demo.wiredStore)
           "monitring.ping" ltac:(discriminate)).
Defined.

(** ** The context-carrying receiver, method by method *)

(** X6. [ReceiverWithContext.receive(ctx, key, payload)] makes exactly one
    call, [h(ctx, payload)], when the table holds [h] at the key, and
    completes as that call does; when the key has no entry it returns
    undefined, calls nothing and leaves the store, whatever the context. The
    context is passed on and never kept. *)
Theorem receive_with_context_dispatch (Call : semantics)
    (r : ReceiverWithContext.t) (ctx key payload : value) (s : store) :
  (forall h,
     lookup_key (table (ReceiverWithContext.routes r) s) key = Some h ->
     ReceiverWithContext.receive Call r ctx key payload s
     = Outcome (Call h [ctx; payload] s).1 (Call h [ctx; payload] s).2
         [(h, [ctx; payload])])
  /\ (lookup_key (table (ReceiverWithContext.routes r) s) key = None ->
      ReceiverWithContext.receive Call r ctx key payload s
      = Outcome (Normal VUndefined) s []).
Proof.
  unfold ReceiverWithContext.receive. rewrite bind_unfold. unfold Map_get.
  cbn [result final calls].
  split.
  - intros h ->. reflexivity.
  - intros ->. reflexivity.
Qed.

Lemma receive_with_context_dispatch_witness :
  let x := VObject [("a", VNum 1); ("b", VNum 2)] in
  ReceiverWithContext.receive (ignoring_context Demo.handlers)
    (ReceiverWithContext.Build 1%positive) (VStr "conn-1") (VStr "math.add") x
    Demo.wiredStore
  = Outcome (Normal (VFulfilled (VNum 3))) Demo.wiredStore
      [(Demo.add, [VStr "conn-1"; x])]
  /\ ReceiverWithContext.receive Demo.handlers (ReceiverWithContext.Build 1%positive)
       (VStr "conn-1") (VStr "unknown.key") x Demo.wiredStore
     = Outcome (Normal VUndefined) Demo.wiredStore [].
Proof.
  intros x. split.
  - apply (proj1 (receive_with_context_dispatch
                    (ignoring_context Demo.handlers)
                    (ReceiverWithContext.Build 1%positive) (VStr "conn-1")
                    (VStr "math.add") x Demo.wiredStore) Demo.add).
    vm_compute; reflexivity.
  - apply (proj2 (receive_with_context_dispatch Demo.handlers
                    (ReceiverWithContext.Build 1%positive) (VStr "conn-1")
                    (VStr "unknown.key") x Demo.wiredStore)).
    vm_compute; reflexivity.
Defined.

(** ** Registered keys stay registered *)

Section Monotone.

Variable Call : semantics.
Hypothesis Hkeeps : keeps_tables Call.

Lemma table_maps (l : loc) (s s' : store) :
  maps s' = maps s -> table l s' = table l s.
Proof. unfold table. by intros ->. Qed.

Lemma step_grows (l : loc) (c : command) (t : trace (base Call)) :
  dom (table l (current t))
  ⊆ dom (table l (current (step (base Call) (Receiver.Build l) t c))).
Proof.
  destruct t as [seen0 routers0 s called0].
  cbn [seen routers current called router receiver base] in *.
  destruct c as [k | i h | ctx key args]; unfold step;
    cbn [seen routers current called do_route do_to do_receive describe
         router receiver base].
  - destruct (route_keeps_store (Receiver.Build l) k s) as [Hs _].
    destruct (result (Receiver.route _ k s)); cbn [current]; by rewrite Hs.
  - destruct (routers0 !! i) as [rt|]; [|done].
    cbn [Router.to Map_set result current final].
    destruct (decide (Router.routes rt = l)) as [<-|Hne].
    + unfold table at 2; cbn [maps]. rewrite lookup_total_insert_eq.
      apply dom_insert_subseteq.
    + unfold table at 2; cbn [maps].
      by rewrite lookup_total_insert_ne.
  - rewrite receive_unfold. cbn [Receiver.routes].
    destruct (lookup_key (table l s) key) as [f|]; cbn [result final current].
    + pose proof (table_maps l s _ (Hkeeps f (ctx :: [args]) s)) as Hsame.
      unfold with_context.
      destruct (Call f [ctx; args] s).1; cbn [current]; by rewrite Hsame.
    + done.
Qed.

Lemma script_grows (l : loc) (cs : list command) :
  forall t : trace (base Call),
    dom (table l (current t))
    ⊆ dom (table l (current (foldl (step (base Call) (Receiver.Build l)) t cs))).
Proof.
  induction cs as [| c cs IH]; intros t; cbn [foldl]; [done|].
  etrans; [apply step_grows | apply IH].
Qed.

End Monotone.

(** X7. There is no way back from registered. Along any script of
    [route], [to] and [receive] commands on a receiver, with handlers that
    leave the routing tables alone, the set of registered keys only grows;
    so a key that is in the table stays there, and a [route] for it at any
    later point throws the route-conflict error. *)
Theorem registered_is_terminal (Call : semantics) (l : loc)
    (cs : list command) (k : string) (s : store) :
  keeps_tables Call ->
  dom (table l s)
  ⊆ dom (table l (current (script (base Call) (Receiver.Build l) cs s)))
  /\ (k ∈ dom (table l s) ->
      last (seen (script (base Call) (Receiver.Build l) (cs ++ [Route k]) s))
      = Some (Thrown (Receiver.RouteConflict k))).
Proof.
  intros Hkeeps.
  assert (dom (table l s)
          ⊆ dom (table l (current (script (base Call) (Receiver.Build l) cs s))))
    as Hsub by apply (script_grows Call Hkeeps l cs (Trace [] [] s [])).
  split; [exact Hsub|].
  intros Hk. unfold script in *. rewrite foldl_snoc.
  unfold step at 1. cbn [do_route base].
  rewrite route_taken.
  - cbn [result seen]. apply last_snoc.
  - cbn [Receiver.routes]. apply elem_of_dom. by apply Hsub.
Qed.

Lemma registered_is_terminal_witness :
  last (seen (script (base Demo.handlers) Demo.receiver
                ([Receive VNull (VStr "math.add") VNull; Route "late";
                  To 0 Demo.ping] ++ [Route "math.add"])
                Demo.wiredStore))
  = Some (Thrown (Receiver.RouteConflict "math.add")).
Proof.
  apply (registered_is_terminal Demo.handlers
           (Receiver.routes Demo.receiver)
           [Receive VNull (VStr "math.add") VNull; Route "late";
            To 0 Demo.ping]
           "math.add" Demo.wiredStore).
  - intros f args s. unfold Demo.handlers.
    repeat (match goal with |- context [match ?x with _ => _ end] =>
              destruct x end; try reflexivity).
  - apply (bool_decide_unpack _). vm_compute. exact I.
Defined.

(** ** The schema utilities agree on requests *)

Lemma at_key_member (Schema : Types.SchemaT) (Key : string) :
  is_Some (Types.at_key Schema Key) <-> Key ∈ Types.KeyOf Schema.
Proof.
  unfold Types.at_key, Types.KeyOf.
  induction Schema as [| [k D] rest IH]; cbn [find fmap list_fmap fst].
  - split; [by intros [? ?] | by intros ?%elem_of_nil].
  - rewrite elem_of_cons. case_bool_decide as Hk; cbn [fst] in Hk.
    + split; [by left | eauto].
    + rewrite IH. split; [by right | by intros [?|?]].
Qed.

(** X8. A key has a request type and a response type exactly when it is a
    key of the schema. The request type of every key is a member of
    [RequestsOf], the parameter type of the transport adapter, and
    [RequestsOf] has no other members; likewise the response type of every
    key is a member of the result type of [Receiver.receive]. *)
Theorem schema_utilities_agree (Schema : Types.SchemaT) (Key : string)
    (t : Types.ty) :
  (is_Some (Types.RequestOf Key Schema) <-> Key ∈ Types.KeyOf Schema)
  /\ (is_Some (Types.ResponseOf Key Schema) <-> Key ∈ Types.KeyOf Schema)
  /\ (Types.RequestOf Key Schema = Some t -> t ∈ Types.RequestsOf Schema)
  /\ (t ∈ Types.RequestsOf Schema ->
      exists Key', Key' ∈ Types.KeyOf Schema
                   /\ Types.RequestOf Key' Schema = Some t)
  /\ (Types.ResponseOf Key Schema = Some t ->
      t ∈ Types.receive_result Schema).
Proof.
  assert (forall name,
            name = "Request" \/ name = "Response" ->
            (is_Some (D ← Types.at_key Schema Key; Types.member D name)
             <-> Key ∈ Types.KeyOf Schema)) as Hsome.
  { intros name Hname. rewrite <- at_key_member.
    destruct (Types.at_key Schema Key) as [D|]; cbn.
    - unfold Types.member. destruct Hname as [-> | ->]; cbn; split; eauto.
    - split; by intros [? ?]. }
  split; [apply Hsome; by left|]. split; [apply Hsome; by right|].
  split; [|split].
  - intros Hreq. unfold Types.RequestsOf, Types.indexed.
    apply list_elem_of_omap. exists Key. split; [|exact Hreq].
    apply (Hsome "Request"); [by left|]. unfold Types.RequestOf in Hreq.
    rewrite Hreq. eauto.
  - intros Hin. unfold Types.RequestsOf, Types.indexed in Hin.
    apply list_elem_of_omap in Hin as (Key' & Hkey & Hreq). eauto.
  - intros Hresp. unfold Types.receive_result, Types.indexed.
    apply list_elem_of_omap. exists Key. split; [|exact Hresp].
    apply (Hsome "Response"); [by right|]. unfold Types.ResponseOf in Hresp.
    rewrite Hresp. eauto.
Qed.

Lemma schema_utilities_agree_witness :
  Types.RequestOf "counter.increment" Demo.Schema = Some Types.TNumber
  /\ Types.TNumber ∈ Types.RequestsOf Demo.Schema.
Proof.
  assert (Types.RequestOf "counter.increment" Demo.Schema = Some Types.TNumber)
    as Hreq by (vm_compute; reflexivity).
  split; [exact Hreq|].
  exact (proj1 (proj2 (proj2 (schema_utilities_agree Demo.Schema
                                "counter.increment" Types.TNumber))) Hreq).
Defined.



(** * The port and the wiring of the example *)

(** ** Lists of calls in flight *)

Lemma delete_after_insert {A : Type} (l : list A) (i : nat) (y : A) :
  delete i (<[i := y]> l) = delete i l.
Proof.
  rewrite !delete_take_drop, take_insert_ge, drop_insert_lt by lia.
  reflexivity.
Qed.

Lemma sum_delete {A : Type} (f : A -> nat) (l : list A) (i : nat) (x : A) :
  l !! i = Some x ->
  sum_list_with f l = f x + sum_list_with f (delete i l).
Proof.
  intros Hi. by rewrite (delete_Permutation l i x Hi) at 1.
Qed.

Lemma sum_insert {A : Type} (f : A -> nat) (l : list A) (i : nat) (x y : A) :
  l !! i = Some x ->
  sum_list_with f (<[i := y]> l) + f x = sum_list_with f l + f y.
Proof.
  intros Hi.
  rewrite (sum_delete f l i x Hi).
  rewrite (sum_delete f (<[i := y]> l) i y)
    by (apply list_lookup_insert_eq; by eapply lookup_lt_Some).
  rewrite delete_after_insert. lia.
Qed.

(** ** The port comes to rest *)

Lemma fire_lighter (Call : semantics) (i : nat) (p q : Port.t) :
  Port.fire Call i p = Some q -> Port.weight q < Port.weight p.
Proof.
  unfold Port.fire, Port.weight.
  destruct (Port.tasks p !! i) as [[n message | n ret]|] eqn:Hi; [| |done].
  - intros [= <-].
    destruct (Call (Port.listener p) [message] (Port.mem p)).1 as [ret | e];
      cbn [Port.tasks].
    + pose proof (sum_insert Port.task_weight _ i _ (Port.Returning n ret) Hi)
        as Hsum.
      cbn [Port.task_weight] in Hsum. lia.
    + rewrite (sum_delete Port.task_weight _ i _ Hi).
      cbn [Port.task_weight]. lia.
  - intros [= <-]. cbn [Port.tasks].
    rewrite (sum_delete Port.task_weight _ i _ Hi).
    cbn [Port.task_weight]. lia.
Qed.

(** X10. Every timer that fires brings the port closer to rest: a schedule
    that the port can follow is never longer than two firings for each call
    that waits for the listener plus one for each call that waits to
    return; and as long as a call is in flight, and only then, a timer can
    fire. *)
Theorem port_comes_to_rest (Call : semantics) (p : Port.t) :
  (forall schedule q,
     Port.fire_all Call schedule p = Some q ->
     length schedule + Port.weight q <= Port.weight p)
  /\ (forall i, is_Some (Port.fire Call i p) <-> i < length (Port.tasks p))
  /\ (Port.weight p = 0 <-> Port.tasks p = []).
Proof.
  split; [|split].
  - intros schedule. revert p.
    induction schedule as [| i rest IH]; intros p q; cbn [Port.fire_all length].
    + intros [= <-]. lia.
    + destruct (Port.fire Call i p) as [p'|] eqn:Hfire; [|done].
      intros Hrest. apply IH in Hrest.
      apply fire_lighter in Hfire. lia.
  - intros i. rewrite <- lookup_lt_is_Some. unfold Port.fire.
    destruct (Port.tasks p !! i) as [[n message | n ret]|]; split;
      eauto; by intros [? ?].
  - unfold Port.weight.
    destruct (Port.tasks p) as [| [n message | n ret] rest];
      cbn [sum_list_with Port.task_weight]; split; (done || lia).
Qed.

(** ** Every message gets its own answer *)






Section Delivery.

Variable Call : semantics.






End Delivery.






(** ** One message in flight *)

Lemma fire_nothing (Call : semantics) (schedule : list nat) (p q : Port.t) :
  Port.tasks p = [] ->
  Port.fire_all Call schedule p = Some q -> q = p.
Proof.
  intros Hnone. destruct schedule as [| i rest]; cbn [Port.fire_all].
  - by intros [= <-].
  - unfold Port.fire. by rewrite Hnone.
Qed.

Lemma single_in_flight (Call : semantics) (schedule : list nat)
    (p q : Port.t) (n : nat) (message : value) :
  Port.tasks p = [Port.Waiting n message] ->
  Port.fire_all Call schedule p = Some q ->
  Port.tasks q = [] ->
  Port.settled q
  = <[n := (Call (Port.listener p) [message] (Port.mem p)).1]> (Port.settled p)
  /\ Port.mem q = (Call (Port.listener p) [message] (Port.mem p)).2
  /\ Port.listener q = Port.listener p
  /\ Port.issued q = Port.issued p.
Proof.
  intros Hone Hrun Hrest.
  destruct schedule as [| [|i] rest]; cbn [Port.fire_all] in Hrun.
  - injection Hrun as <-. by rewrite Hone in Hrest.
  - unfold Port.fire in Hrun at 1. rewrite Hone in Hrun.
    cbn [lookup list_lookup] in Hrun.
    destruct (Call (Port.listener p) [message] (Port.mem p)).1 as [ret | e].
    + cbn [list_insert insert] in Hrun.
      destruct rest as [| [|j] rest']; cbn [Port.fire_all] in Hrun.
      * injection Hrun as <-. done.
      * unfold Port.fire in Hrun at 1.
        cbn [Port.tasks lookup list_lookup delete list_delete] in Hrun.
        apply fire_nothing in Hrun; [|done]. by subst q.
      * unfold Port.fire in Hrun at 1.
        cbn [Port.tasks lookup list_lookup] in Hrun. done.
    + cbn [delete list_delete] in Hrun.
      apply fire_nothing in Hrun; [|done]. by subst q.
  - unfold Port.fire in Hrun at 1. rewrite Hone in Hrun.
    cbn [lookup list_lookup] in Hrun. by destruct i.
Qed.






Lemma port_comes_to_rest_witness :
  let m1 := Index.message (VStr "math.add")
              (VObject [("a", VNum 1); ("b", VNum 2)]) in
  let m2 := Index.message (VStr "unknown.key") VNull in
  let p := (Port.sendMessage m2 (Port.sendMessage m1 Wired.port).2).2 in
  match Port.fire_all Wired.Call [1; 0; 0; 0] p with
  | Some q => length [1; 0; 0; 0] + Port.weight q <= Port.weight p
  | None => False
  end.
Proof.
  intros m1 m2 p.
  destruct (Port.fire_all Wired.Call [1; 0; 0; 0] p) as [q|] eqn:Hrun.
  - exact (proj1 (port_comes_to_rest Wired.Call p) [1; 0; 0; 0] q Hrun).
  - vm_compute in Hrun. discriminate Hrun.
Defined.

(** ** The listener of the example *)



(** X15. A port nobody listens to. With the listener the module starts
    with, a function that returns undefined and leaves the store, the
    promise of [sendMessage] is resolved with undefined, whatever the
    message and the schedule, and the store is as it was. *)
Theorem port_without_listener (Call : semantics) (noop : fn) (s : store)
    (message : value) (schedule : list nat) (q : Port.t) :
  Call noop [message] s = (Normal VUndefined, s) ->
  Port.fire_all Call schedule (Port.sendMessage message (Port.init noop s)).2
    = Some q ->
  Port.tasks q = [] ->
  (Port.sendMessage message (Port.init noop s)).1 = VPending 0
  /\ Port.outcome q 0 = Some (Normal VUndefined)
  /\ Port.mem q = s.
Proof.
  intros Hnoop Hrun Hrest.
  destruct (single_in_flight Call schedule
              (Port.sendMessage message (Port.init noop s)).2 q 0 message
              eq_refl Hrun Hrest)
    as (Hsettled & Hmem & _).
  cbn [Port.sendMessage Port.init Port.listener Port.mem Port.settled
       fst snd] in *.
  rewrite Hnoop in Hsettled, Hmem. cbn [fst snd] in *.
  split; [done|]. split; [|done].
  unfold Port.outcome. by rewrite Hsettled, lookup_insert_eq.
Qed.

Lemma port_without_listener_witness :
  match Port.fire_all Wired.Call [0; 0]
          (Port.sendMessage (VStr "hello")
             (Port.init Wired.noop Demo.wiredStore)).2 with
  | Some q => Port.outcome q 0 = Some (Normal VUndefined)
  | None => False
  end.
Proof.
  assert (Port.tasks
            <$> Port.fire_all Wired.Call [0; 0]
                  (Port.sendMessage (VStr "hello")
                     (Port.init Wired.noop Demo.wiredStore)).2
          = Some []) as Hrest by (vm_compute; reflexivity).
  destruct (Port.fire_all Wired.Call [0; 0]
              (Port.sendMessage (VStr "hello")
                 (Port.init Wired.noop Demo.wiredStore)).2)
    as [q|] eqn:Hrun; [|discriminate Hrest].
  injection Hrest as Hrest.
  apply (port_without_listener Wired.Call Wired.noop Demo.wiredStore
           (VStr "hello") [0; 0] q eq_refl Hrun Hrest).
Defined.

Lemma receivers_independent_witness :
  match result (two_receivers "late" Demo.ping Demo.wiredStore) with
  | Normal (r1, r2) =>
      Receiver.routes r1 ≠ Receiver.routes r2
      /\ table (Receiver.routes r2)
           (final (two_receivers "late" Demo.ping Demo.wiredStore)) = ∅
  | Throw _ => False
  end.
Proof.
  pose proof (receivers_independent Demo.handlers "late" Demo.ping VNull
                Demo.wiredStore) as Hindependent.
  destruct (result (two_receivers "late" Demo.ping Demo.wiredStore))
    as [[r1 r2] | e]; [|done].
  destruct Hindependent as (Hne & _ & Hempty & _). by split.
Defined.
